(** * Stream multiplexing layer of the AMS SDK

    A model of the websocket stream helpers of the two Go packages

    - package [shared]  (src/shared/network.go), and
    - package [network] (pkg/network/network.go, the second half of
      src/pkg/ams/client/container.go),

    and of [ExecuteContainer] of package [client]
    (src/pkg/ams/client/container.go), which wires them to the channels of
    a remote command.

    Sequential code is rendered as functions that return the trace of the
    calls they make; goroutines that synchronise over channels are rendered
    as step relations whose states are the program points of each
    goroutine. *)

From Stdlib Require Import ZArith List Bool Lia.
From Stdlib.Strings Require Import Byte.
From stdpp Require Import base option list gmap strings.
Import ListNotations.
Local Open Scope Z_scope.

(** ** Bytes, readers, writers *)

Abbreviation bytes := (list byte).

(** Go's [len(b)]. *)
Definition len (b : bytes) : Z := Z.of_nat (length b).

(** One call of [io.Reader.Read]: the [nr] bytes it stored and whether it
    returned a non-nil error.  Go allows both at once. *)
Record ReadResult := mkRead { rd_data : bytes; rd_err : bool }.

(** A reader is the script of the results of its successive [Read] calls.
    Past the end of the script the reader is at end of input: [Read]
    returns [(0, io.EOF)]. *)
Abbreviation Reader := (list ReadResult).

Definition eofRead : ReadResult := mkRead [] true.

(** The bytes the consumer of a reader is handed, up to and including the
    call that fails. *)
Fixpoint bytes_read (r : Reader) : bytes :=
  match r with
  | [] => []
  | rr :: r' => rd_data rr ++ (if rd_err rr then [] else bytes_read r')
  end.

(** [readSize := 128 * 1024] in both versions of [ReaderToChannel]. *)
Definition readSize : Z := 128 * 1024.

(** [if bufferSize <= 128*1024 { bufferSize = 128 * 1024 }] *)
Definition effectiveBufferSize (bufferSize : Z) : Z :=
  if bufferSize <=? 128 * 1024 then 128 * 1024 else bufferSize.

(** The [Read] contract: a call stores at most [len(p)] bytes, and every
    call of [ReaderToChannel] passes a slice of [readSize] bytes. *)
Definition respects_read_size (r : Reader) : Prop :=
  Forall (fun rr => len (rd_data rr) <= readSize) r.

(** A local [io.Writer]: the result [(n, err)] of its [k]-th [Write] call on
    a given buffer. *)
Abbreviation Writer := (nat -> bytes -> Z * bool).

(** ** Connections *)

(** The message types [websocket.TextMessage], [websocket.BinaryMessage] and
    [websocket.CloseMessage] of the gorilla/websocket library, which are the
    opcodes of RFC 6455. *)
Definition TextMessage : Z := 1.
Definition BinaryMessage : Z := 2.
Definition CloseMessage : Z := 8.

(** [websocket.FormatCloseMessage(websocket.CloseNormalClosure, "")]: the
    status code 1000 in two bytes, and no text. *)
Definition closeMsg : bytes := [x03; xe8].

(** What a goroutine does to a connection and to its local endpoints, in
    program order. *)
Inductive Event :=
| NextWriter (mt : Z) (ok : bool)           (* conn.NextWriter(mt) *)
| MsgWrite (buf : bytes) (ok : bool)        (* w.Write(buf), io.Copy(w, r) *)
| MsgClose                                  (* w.Close() of a message writer *)
| WriteMessage (mt : Z) (data : bytes)      (* conn.WriteMessage(mt, data) *)
| LocalWrite (buf : bytes) (n : Z) (err : bool)  (* n, err := w.Write(buf) *)
| LocalWriterClose                          (* w.Close() of the local writer *)
| LocalReaderClose                          (* r.Close() of the local reader *)
| Signal                                    (* ch <- true *)
| SignalClosed.                             (* close(ch) *)

(** The write side of a connection: how the [i]-th attempt to send one
    message ends. *)
Inductive SendOutcome := NextWriterFails | WriteFails | Sent.
Abbreviation ConnOut := (nat -> SendOutcome).

(** The read side of a connection: the results of the successive
    [conn.NextReader()] calls, [mt, r, err], with the payload that reading
    [r] to its end gives and whether that reading fails.  Past the end of
    the script the connection is gone and [NextReader] fails. *)
Record Incoming := mkIn {
  in_mt : Z;
  in_err : bool;
  in_payload : bytes;
  in_read_err : bool
}.
Abbreviation ConnIn := (list Incoming).



(** The completion signals of a trace. *)
Definition is_fire (e : Event) : bool :=
  match e with Signal | SignalClosed => true | _ => false end.
Definition fires (tr : list Event) : nat := length (filter is_fire tr).

(** The barrier: a text message without payload. *)
Definition is_barrier (e : Event) : bool :=
  match e with
  | WriteMessage mt [] => mt =? TextMessage
  | _ => false
  end.
Definition barriers (tr : list Event) : nat := length (filter is_barrier tr).

Definition is_close_message (e : Event) : bool :=
  match e with
  | WriteMessage mt _ => mt =? CloseMessage
  | _ => false
  end.
Definition close_messages (tr : list Event) : nat :=
  length (filter is_close_message tr).

(** The loop shared by [defaultReader] and the reader goroutine of
    [WebsocketConsoleMirror], which have the same text in both packages:
    [chunks] is what [ReaderToChannel(r, -1)] delivers. *)
Fixpoint mirror_reader (conn : ConnOut) (i : nat) (chunks : list bytes)
  : list Event :=
  let on_break := [WriteMessage CloseMessage closeMsg; Signal; LocalReaderClose] in
  match chunks with
  | [] => [LocalReaderClose; WriteMessage TextMessage []; Signal]
  | buf :: rest =>
      match conn i with
      | NextWriterFails => NextWriter BinaryMessage false :: on_break
      | WriteFails =>
          NextWriter BinaryMessage true :: MsgWrite buf false :: MsgClose
            :: on_break
      | Sent =>
          NextWriter BinaryMessage true :: MsgWrite buf true :: MsgClose
            :: mirror_reader conn (S i) rest
      end
  end.

(** [defaultWriter], the same text in both packages. *)
Fixpoint defaultWriter_loop (w : Writer) (k : nat) (conn : ConnIn)
  : list Event :=
  match conn with
  | [] => []
  | m :: rest =>
      if in_err m then []
      else if in_mt m =? CloseMessage then []
      else if in_mt m =? TextMessage then []
      else if in_read_err m then []
      else
        let '(n, err) := w k (in_payload m) in
        LocalWrite (in_payload m) n err ::
        (if negb (n =? len (in_payload m)) then []
         else if err then []
         else defaultWriter_loop w (S k) rest)
  end.

Definition defaultWriter (conn : ConnIn) (w : Writer) : list Event :=
  defaultWriter_loop w 0%nat conn ++ [Signal; LocalWriterClose].

(** The [forward] closure of [WebsocketProxy], the same text in both
    packages.  [io.Copy] fails when reading the incoming message or writing
    the outgoing one fails. *)
Fixpoint forward_loop (out : ConnOut) (i : nat) (inc : ConnIn) : list Event :=
  match inc with
  | [] => []
  | m :: rest =>
      if in_err m then []
      else
        match out i with
        | NextWriterFails => [NextWriter (in_mt m) false]
        | WriteFails =>
            [NextWriter (in_mt m) true; MsgWrite (in_payload m) false; MsgClose]
        | Sent =>
            if in_read_err m then
              [NextWriter (in_mt m) true; MsgWrite (in_payload m) false;
               MsgClose]
            else
              NextWriter (in_mt m) true :: MsgWrite (in_payload m) true
                :: MsgClose :: forward_loop out (S i) rest
        end
  end.

Definition forward (inc : ConnIn) (out : ConnOut) : list Event :=
  forward_loop out 0%nat inc ++ [Signal].

(** ** ReaderToChannel *)

(** The producer goroutine keeps [offset] and [buf]; the model keeps the
    filled part [buf[0:offset]], so that [offset] is its length.  One pass
    of the loop gives the chunk sent on the channel (if any), the filled
    part afterwards and whether the loop ends (the channel is then
    closed). *)

Module Shared.

Definition iteration (bufferSize : Z) (buf : bytes) (rr : ReadResult)
  : option bytes * bytes * bool :=
  let buf1 := buf ++ rd_data rr in
  let offset := len buf1 in
  let flush :=
    (0 <? offset) && ((bufferSize <=? offset + readSize) || rd_err rr) in
  (if flush then Some buf1 else None,
   if flush then [] else buf1,
   rd_err rr).

Fixpoint produce (bufferSize : Z) (buf : bytes) (r : Reader) : list bytes :=
  match r with
  | [] =>
      match iteration bufferSize buf eofRead with
      | (sent, _, _) => option_list sent
      end
  | rr :: r' =>
      match iteration bufferSize buf rr with
      | (sent, buf', stop) =>
          option_list sent ++
          (if stop then [] else produce bufferSize buf' r')
      end
  end.

(** The chunks received from the channel until it is closed. *)
Definition ReaderToChannel (r : Reader) (bufferSize : Z) : list bytes :=
  produce (effectiveBufferSize bufferSize) [] r.

(** [WebsocketSendStream]: the loop over the chunks of the reader. *)
Fixpoint send_loop (conn : ConnOut) (i : nat) (chunks : list bytes)
  : list Event :=
  match chunks with
  | [] => []
  | buf :: rest =>
      match conn i with
      | NextWriterFails => [NextWriter BinaryMessage false]
      | WriteFails =>
          [NextWriter BinaryMessage true; MsgWrite buf false; MsgClose]
      | Sent =>
          NextWriter BinaryMessage true :: MsgWrite buf true :: MsgClose
            :: send_loop conn (S i) rest
      end
  end.

(** A nil reader is [None]. *)
Definition WebsocketSendStream (conn : ConnOut) (r : option Reader)
  (bufferSize : Z) : list Event :=
  match r with
  | None => [SignalClosed]
  | Some r =>
      send_loop conn 0%nat (ReaderToChannel r bufferSize)
        ++ [WriteMessage TextMessage []; Signal]
  end.

(** [WebsocketRecvStream]: the message type is tested before the error. *)
Fixpoint recv_loop (w : option Writer) (k : nat) (conn : ConnIn)
  : list Event :=
  match conn with
  | [] => []
  | m :: rest =>
      if in_mt m =? CloseMessage then []
      else if in_mt m =? TextMessage then []
      else if in_err m then []
      else if in_read_err m then []
      else
        match w with
        | None => recv_loop w k rest
        | Some wr =>
            let '(n, err) := wr k (in_payload m) in
            LocalWrite (in_payload m) n err ::
            (if negb (n =? len (in_payload m)) then []
             else if err then []
             else recv_loop w (S k) rest)
        end
  end.

Definition WebsocketRecvStream (w : option Writer) (conn : ConnIn)
  : list Event :=
  recv_loop w 0%nat conn ++ [Signal].

Definition defaultReader (conn : ConnOut) (r : Reader) : list Event :=
  mirror_reader conn 0%nat (ReaderToChannel r (-1)).

(** [WebsocketConsoleMirror]: the traces of its reader goroutine (signal
    [readDone]) and of [defaultWriter] (signal [writeDone]). *)
Definition WebsocketConsoleMirror (conn_out : ConnOut) (conn_in : ConnIn)
  (w : Writer) (r : Reader) : list Event * list Event :=
  (mirror_reader conn_out 0%nat (ReaderToChannel r (-1)),
   defaultWriter conn_in w).

End Shared.

Module Network.

(** Here the error is tested first: the bytes stored by the failing call
    and the filled part of the buffer are not sent. *)
Definition iteration (bufferSize : Z) (buf : bytes) (rr : ReadResult)
  : option bytes * bytes * bool :=
  if rd_err rr then (None, buf, true)
  else
    let buf1 := buf ++ rd_data rr in
    let offset := len buf1 in
    let flush := (0 <? offset) && (bufferSize <=? offset + readSize) in
    (if flush then Some buf1 else None,
     if flush then [] else buf1,
     false).

Fixpoint produce (bufferSize : Z) (buf : bytes) (r : Reader) : list bytes :=
  match r with
  | [] =>
      match iteration bufferSize buf eofRead with
      | (sent, _, _) => option_list sent
      end
  | rr :: r' =>
      match iteration bufferSize buf rr with
      | (sent, buf', stop) =>
          option_list sent ++
          (if stop then [] else produce bufferSize buf' r')
      end
  end.

Definition ReaderToChannel (r : Reader) (bufferSize : Z) : list bytes :=
  produce (effectiveBufferSize bufferSize) [] r.

(** [WebsocketSendStreamWithContext].  [ctx i] tells whether the [select] of
    pass [i] takes [<-ctx.Done()].  A failed write is logged and the loop
    goes on. *)
Fixpoint send_loop (ctx : nat -> bool) (conn : ConnOut) (i : nat)
  (chunks : list bytes) : list Event :=
  match chunks with
  | [] => []
  | buf :: rest =>
      if ctx i then []
      else
        match conn i with
        | NextWriterFails => [NextWriter BinaryMessage false]
        | WriteFails =>
            NextWriter BinaryMessage true :: MsgWrite buf false :: MsgClose
              :: send_loop ctx conn (S i) rest
        | Sent =>
            NextWriter BinaryMessage true :: MsgWrite buf true :: MsgClose
              :: send_loop ctx conn (S i) rest
        end
  end.

Definition WebsocketSendStreamWithContext (ctx : nat -> bool)
  (conn : ConnOut) (r : option Reader) (bufferSize : Z) : list Event :=
  match r with
  | None => [SignalClosed]
  | Some r =>
      send_loop ctx conn 0%nat (ReaderToChannel r bufferSize) ++ [Signal]
  end.

(** [context.Background()] is never done. *)
Definition Background : nat -> bool := fun _ => false.

Definition WebsocketSendStream (conn : ConnOut) (r : option Reader)
  (bufferSize : Z) : list Event :=
  WebsocketSendStreamWithContext Background conn r bufferSize.

(** [WebsocketRecvStream]: the error is tested before the message type. *)
Fixpoint recv_loop (w : option Writer) (k : nat) (conn : ConnIn)
  : list Event :=
  match conn with
  | [] => []
  | m :: rest =>
      if in_err m then []
      else if in_mt m =? CloseMessage then []
      else if in_mt m =? TextMessage then []
      else if in_read_err m then []
      else
        match w with
        | None => recv_loop w k rest
        | Some wr =>
            let '(n, err) := wr k (in_payload m) in
            LocalWrite (in_payload m) n err ::
            (if negb (n =? len (in_payload m)) then []
             else if err then []
             else recv_loop w (S k) rest)
        end
  end.

Definition WebsocketRecvStream (w : option Writer) (conn : ConnIn)
  : list Event :=
  recv_loop w 0%nat conn ++ [Signal].

Definition defaultReader (conn : ConnOut) (r : Reader) : list Event :=
  mirror_reader conn 0%nat (ReaderToChannel r (-1)).

Definition WebsocketConsoleMirror (conn_out : ConnOut) (conn_in : ConnIn)
  (w : Writer) (r : Reader) : list Event * list Event :=
  (mirror_reader conn_out 0%nat (ReaderToChannel r (-1)),
   defaultWriter conn_in w).

End Network.


(** ** Goroutines and their completion channels *)

(** The connections of a session, by the channel they were opened for, and
    the two connections handed to the proxy. *)
Inductive Conn := CControl | CStdin | CStdout | CStderr | CSource | CTarget.

(** A pump is a goroutine that ends with [ch <- true] on an unbuffered
    channel of its own; it is named after the connection it serves. *)
Inductive Pump :=
| Outbound (c : Conn)          (* WebsocketSendStream(conn, r, _)  *)
| Inbound (c : Conn)           (* WebsocketRecvStream(w, conn)     *)
| Forward (from to : Conn).    (* forward(in, out, ch)             *)

#[global] Instance Conn_eq_dec : EqDecision Conn.
Proof. solve_decision. Defined.
#[global] Instance Pump_eq_dec : EqDecision Pump.
Proof. solve_decision. Defined.

Inductive Effect :=
| Dial (c : Conn) (secret : string) (ok : bool)
                               (* c.getOperationWebsocket(opAPI.ID, secret) *)
| GoControl                    (* go args.Control(conn) *)
| ConnClose (c : Conn)         (* conn.Close() *)
| StdinClose                   (* args.Stdin.Close() *)
| DataDoneClose                (* close(args.DataDone) *)
| Fire.                        (* ch <- true, received by the caller *)

#[global] Instance Effect_eq_dec : EqDecision Effect.
Proof. solve_decision. Defined.

(** The operations of a coordinating goroutine, in program order. *)
Inductive Action :=
| Start (p : Pump)             (* the call that starts pump [p] *)
| StartClosed (p : Pump)       (* the same call with r == nil: close(ch) *)
| Wait (p : Pump)              (* <-ch *)
| WaitAny (p q : Pump)         (* select { case <-chP: case <-chQ: } *)
| Do (e : Effect)
| NilCall.                     (* method call on a nil interface: panic *)

(** Where a pump stands: not started, in its loop, blocked in
    [ch <- true], returned; [ChClosed] when its channel was closed instead
    of a goroutine being started. *)
Inductive PumpPc := Idle | Running | Signalling | Exited | ChClosed.

Record State := mkState {
  todo : list Action;          (* what the coordinator has left to do *)
  pumps : Pump -> PumpPc;
  done : list Effect;          (* the effects so far, oldest first *)
  panicked : bool
}.

Definition set_pump (p : Pump) (v : PumpPc) (f : Pump -> PumpPc)
  : Pump -> PumpPc :=
  fun q => if decide (q = p) then v else f q.

(** One step of the program: the coordinator runs its next operation, or a
    pump leaves its loop.  A send on an unbuffered channel completes only
    together with a receive; a receive on a closed channel returns at once;
    a panic stops the program. *)
Inductive step : State -> State -> Prop :=
| step_start p k ps d :
    step (mkState (Start p :: k) ps d false)
         (mkState k (set_pump p Running ps) d false)
| step_start_closed p k ps d :
    step (mkState (StartClosed p :: k) ps d false)
         (mkState k (set_pump p ChClosed ps) d false)
| step_loop_ends p t ps d :
    ps p = Running ->
    step (mkState t ps d false)
         (mkState t (set_pump p Signalling ps) d false)
| step_wait p k ps d :
    ps p = Signalling ->
    step (mkState (Wait p :: k) ps d false)
         (mkState k (set_pump p Exited ps) d false)
| step_wait_closed p k ps d :
    ps p = ChClosed ->
    step (mkState (Wait p :: k) ps d false) (mkState k ps d false)
| step_select_l p q k ps d :
    ps p = Signalling ->
    step (mkState (WaitAny p q :: k) ps d false)
         (mkState k (set_pump p Exited ps) d false)
| step_select_r p q k ps d :
    ps q = Signalling ->
    step (mkState (WaitAny p q :: k) ps d false)
         (mkState k (set_pump q Exited ps) d false)
| step_select_closed p q k ps d :
    ps p = ChClosed \/ ps q = ChClosed ->
    step (mkState (WaitAny p q :: k) ps d false) (mkState k ps d false)
| step_do e k ps d :
    step (mkState (Do e :: k) ps d false) (mkState k ps (d ++ [e]) false)
| step_panic k ps d :
    step (mkState (NilCall :: k) ps d false)
         (mkState (NilCall :: k) ps d true).

Definition start_state (prog : list Action) : State :=
  mkState prog (fun _ => Idle) [] false.

Definition reachable (prog : list Action) (s : State) : Prop :=
  rtc step (start_state prog) s.

(** What a receive from the channel of pump [p] leaves behind, when the
    pump can be brought to its send or its channel is closed. *)
Definition settle (p : Pump) (ps : Pump -> PumpPc)
  : option (Pump -> PumpPc) :=
  match ps p with
  | Running => Some (set_pump p Exited (set_pump p Signalling ps))
  | Signalling => Some (set_pump p Exited ps)
  | ChClosed => Some ps
  | _ => None
  end.

(** One schedule, as a function: every pump stays in its loop until the
    coordinator waits for it.  The result is the state in which the
    coordinator has finished, has panicked or cannot go on. *)
Fixpoint exec (t : list Action) (ps : Pump -> PumpPc) (d : list Effect)
  : State :=
  match t with
  | [] => mkState [] ps d false
  | Start p :: k => exec k (set_pump p Running ps) d
  | StartClosed p :: k => exec k (set_pump p ChClosed ps) d
  | Wait p :: k =>
      match settle p ps with
      | Some ps' => exec k ps' d
      | None => mkState t ps d false
      end
  | WaitAny p q :: k =>
      match settle p ps with
      | Some ps' => exec k ps' d
      | None =>
          match settle q ps with
          | Some ps' => exec k ps' d
          | None => mkState t ps d false
          end
      end
  | Do e :: k => exec k ps (d ++ [e])
  | NilCall :: k => mkState t ps d true
  end.

(** The effects of a list of operations, and which operations concern a
    given pump. *)
Definition effects (t : list Action) : list Effect :=
  flat_map (fun a => match a with Do e => [e] | _ => [] end) t.

Definition waits_on (p : Pump) (a : Action) : bool :=
  match a with
  | Wait q => bool_decide (q = p)
  | WaitAny q r => bool_decide (q = p) || bool_decide (r = p)
  | _ => false
  end.

Definition starts (p : Pump) (a : Action) : bool :=
  match a with
  | Start q | StartClosed q => bool_decide (q = p)
  | _ => false
  end.

(** ** WebsocketProxy *)

(** The same text in both packages: two [forward] goroutines, and a third
    goroutine that waits for either, closes both connections and signals
    the caller. *)
Definition WebsocketProxy : list Action :=
  [ Start (Forward CSource CTarget);
    Start (Forward CTarget CSource);
    WaitAny (Forward CSource CTarget) (Forward CTarget CSource);
    Do (ConnClose CSource);
    Do (ConnClose CTarget);
    Do Fire ].

(** ** ExecuteContainer *)

Module Client.

Record ContainerExecArgs := {
  Stdin : option Reader;       (* nil is None *)
  Stdout : option Writer;
  Stderr : option Writer;
  Control : bool;              (* args.Control != nil *)
  DataDone : bool              (* args.DataDone != nil *)
}.

Inductive error :=
| ErrInvalidArgument (what : string)
| ErrNotSupported (extension : string)
| ErrHasExtension
| ErrMarshal
| ErrQueryOperation
| ErrWebsocket (secret : string).

(** The collaborators of [ExecuteContainer]: the result of
    [c.HasExtension("container_exec")] ([None] for an error), whether
    [json.Marshal(details)] succeeds, the ["fds"] metadata of the operation
    that [c.QueryOperation] returns, as the map [fds] that the function
    copies it into ([None] for an error, the empty map when the operation
    has no such metadata), and which secrets [c.getOperationWebsocket] can
    connect to. *)
Record Collaborators := {
  HasExtension : option bool;
  Marshal : bool;
  QueryOperation : option (gmap string string);
  connects : string -> bool
}.

(** The calls made so far, and an error or a value. *)
Definition M (A : Type) : Type := list Action * (error + A).

Definition ret {A} (a : A) : M A := ([], inr a).
Definition fail {A} (e : error) : M A := ([], inl e).
Definition emit (a : Action) : M unit := ([a], inr tt).
Definition bind {A B} (m : M A) (k : A -> M B) : M B :=
  match m with
  | (tr, inl e) => (tr, inl e)
  | (tr, inr a) => match k a with (tr', r) => (tr ++ tr', r) end
  end.

Notation "x <- m ;; k" := (bind m (fun x => k))
  (at level 100, m at next level, right associativity).
Notation "m ;;; k" := (bind m (fun _ => k))
  (at level 100, right associativity).

(** [fds[k]]: the empty string when the key is missing. *)
Definition fd (fds : gmap string string) (k : string) : string :=
  default EmptyString (fds !! k).

Definition nonempty (s : string) : bool := negb (String.eqb s EmptyString).

Definition getOperationWebsocket (env : Collaborators) (c : Conn)
  (secret : string) : M unit :=
  if connects env secret then emit (Do (Dial c secret true))
  else ([Do (Dial c secret false)], inl (ErrWebsocket secret)).

(** [network.WebsocketSendStream(conn, r, -1)] as seen by its caller. *)
Definition sendStream (c : Conn) (r : option Reader) : Action :=
  match r with
  | Some _ => Start (Outbound c)
  | None => StartClosed (Outbound c)
  end.

(** The goroutine of an interactive session. *)
Definition interactiveTask (args : ContainerExecArgs) : list Action :=
  [ sendStream CStdin (Stdin args);
    Start (Inbound CStdin);
    Wait (Inbound CStdin);
    Do (ConnClose CStdin) ]
  ++ (if DataDone args then [Do DataDoneClose] else []).

(** The goroutine that ends a session which is not interactive.  [dones]
    is the map from descriptor to completion channel; the model waits in
    the order of insertion, where Go ranges over the map in any order. *)
Definition cleanupTask (fds : gmap string string) (args : ContainerExecArgs)
  (dones : list (Z * Pump)) (conns : list Conn) : list Action :=
  map (fun d => Wait (snd d)) (filter (fun d => fst d ≠ 0) dones)
  ++ (if nonempty (fd fds "0")
      then [match Stdin args with Some _ => Do StdinClose | None => NilCall end]
      else [])
  ++ map (fun c => Do (ConnClose c)) conns
  ++ (if DataDone args then [Do DataDoneClose] else []).

(** [ExecuteContainer]: the calls it makes before it returns, and either
    its error or the goroutine it leaves behind (no operations when there
    is none). *)
Definition ExecuteContainer (env : Collaborators) (id : string)
  (interactive : bool) (args : option ContainerExecArgs)
  : M (list Action) :=
  if String.eqb id EmptyString then fail (ErrInvalidArgument "id") else
  match HasExtension env with
  | None => fail ErrHasExtension
  | Some false => fail (ErrNotSupported "container_exec")
  | Some true =>
  if negb (Marshal env) then fail ErrMarshal else
  match QueryOperation env with
  | None => fail ErrQueryOperation
  | Some fds =>
  match args with
  | None => ret []
  | Some args =>
      (if Control args && nonempty (fd fds "control")
       then getOperationWebsocket env CControl (fd fds "control") ;;;
            emit (Do GoControl)
       else ret tt) ;;;
      if interactive then
        if bool_decide (is_Some (Stdin args))
           && bool_decide (is_Some (Stdout args))
        then
          getOperationWebsocket env CStdin (fd fds "0") ;;;
          ret (interactiveTask args)
        else
          (if DataDone args then emit (Do DataDoneClose) else ret tt) ;;;
          ret []
      else
        st0 <- (if nonempty (fd fds "0") then
                  getOperationWebsocket env CStdin (fd fds "0") ;;;
                  emit (sendStream CStdin (Stdin args)) ;;;
                  ret ([(0, Outbound CStdin)], [CStdin])
                else ret ([], [])) ;;
        st1 <- (if nonempty (fd fds "1") then
                  getOperationWebsocket env CStdout (fd fds "1") ;;;
                  emit (Start (Inbound CStdout)) ;;;
                  ret (fst st0 ++ [(1, Inbound CStdout)], snd st0 ++ [CStdout])
                else ret st0) ;;
        st2 <- (if nonempty (fd fds "2") then
                  getOperationWebsocket env CStderr (fd fds "2") ;;;
                  emit (Start (Inbound CStderr)) ;;;
                  ret (fst st1 ++ [(2, Inbound CStderr)], snd st1 ++ [CStderr])
                else ret st1) ;;
        ret (cleanupTask fds args (fst st2) (snd st2))
  end
  end
  end.

(** The program of a session that started: the calls of
    [ExecuteContainer], then the goroutine it left behind. *)
Definition session (m : M (list Action)) : option (list Action) :=
  match m with
  | (tr, inr task) => Some (tr ++ task)
  | (_, inl _) => None
  end.

End Client.

(** ** Predicates of the specification, invariants and example inputs *)

(** Between two passes of the loop the buffer is empty or has room for a
    whole read. *)
Definition room (B : Z) (buf : bytes) : Prop :=
  buf = [] \/ len buf + readSize < B.

(** The claim of the specification about the chunks, for one reader and one
    requested size. *)
Definition chunks_as_specified (rtc : Reader -> Z -> list bytes)
  (r : Reader) (F : Z) : Prop :=
  concat (rtc r F) = bytes_read r /\
  Forall (fun c => effectiveBufferSize F <= len c) (removelast (rtc r F)).

(** A trace is quiet when it has no completion signal, no barrier and no
    close message. *)
Definition quiet (tr : list Event) : Prop :=
  fires tr = 0%nat /\ barriers tr = 0%nat /\ close_messages tr = 0%nat.

(** The signal is the last thing a pump does, and it is the only one. *)
Definition fires_once_at_exit (tr : list Event) : Prop :=
  exists pre e, tr = pre ++ [e] /\ is_fire e = true /\ fires pre = 0%nat.

(** Whether the connection takes the [n] messages from the [i]-th on. *)
Definition all_sent (conn : ConnOut) (i n : nat) : bool :=
  forallb (fun j => match conn j with Sent => true | _ => false end)
          (seq i n).

Definition on_eof : list Event :=
  [LocalReaderClose; WriteMessage TextMessage []; Signal].
Definition on_break : list Event :=
  [WriteMessage CloseMessage closeMsg; Signal; LocalReaderClose].

(** The claim of the specification about the reader half of the console
    mirror when the local reader ends: a barrier and a close message go out
    before the signal. *)
Definition eof_as_specified (tr : list Event) : Prop :=
  exists pre post,
    tr = pre ++ Signal :: post /\
    (1 <= barriers pre)%nat /\ (1 <= close_messages pre)%nat.

(** What the specification says of one received message [m], for a loop
    [loop] that has made [k] local writes and has [rest] still to come. *)
Definition recv_as_specified
  (loop : option Writer -> nat -> ConnIn -> list Event)
  (w : option Writer) (k : nat) (m : Incoming) (rest : ConnIn) : Prop :=
  (in_err m = true -> loop w k (m :: rest) = []) /\
  (in_mt m = CloseMessage -> loop w k (m :: rest) = []) /\
  (in_mt m = TextMessage -> loop w k (m :: rest) = []) /\
  (in_mt m = BinaryMessage -> in_err m = false -> in_read_err m = false ->
   match w with
   | None => loop w k (m :: rest) = loop w k rest
   | Some wr =>
       loop w k (m :: rest)
       = LocalWrite (in_payload m) (fst (wr k (in_payload m)))
                    (snd (wr k (in_payload m)))
         :: (if (fst (wr k (in_payload m)) =? len (in_payload m))
                && negb (snd (wr k (in_payload m)))
             then loop w (S k) rest
             else [])
   end).

(** A pump nobody waits for never hands over its signal. *)
Definition unawaited (p : Pump) (s : State) : Prop :=
  Forall (fun a => waits_on p a = false) (todo s) /\ pumps s p <> Exited.

(** A pump that is blocked in its send while nothing ahead waits for it or
    starts it anew stays blocked for ever. *)
Definition stranded (p : Pump) (s : State) : Prop :=
  Forall (fun a => waits_on p a = false /\ starts p a = false) (todo s) /\
  pumps s p = Signalling.

(** An effect that comes after [<-ch] of pump [p] in the program is seen
    only once [p] has handed over its signal. *)
Definition gated (p : Pump) (e : Effect) (post : list Action) (s : State)
  : Prop :=
  (exists pre,
      todo s = pre ++ Wait p :: post /\
      Forall (fun a => a <> Do e /\ a <> StartClosed p) pre /\
      ~ In e (done s) /\ pumps s p <> ChClosed)
  \/ (Forall (fun a => starts p a = false) (todo s) /\ pumps s p = Exited).

(** The operations before and after the first call on a nil interface. *)
Fixpoint before_nil (t : list Action) : option (list Action * list Action) :=
  match t with
  | [] => None
  | NilCall :: k => Some ([], k)
  | a :: k =>
      match before_nil k with
      | Some (pre, post) => Some (a :: pre, post)
      | None => None
      end
  end.

Import Client.

(** The inputs of the examples: an operation with all four channels. *)
Definition example_fds : gmap string string :=
  <["control" := "c"]> (<["0" := "s0"]> (<["1" := "s1"]> (<["2" := "s2"]> ∅))).

Definition example_writer : Writer := fun _ b => (len b, false).

(** Every connection can be opened. *)
Definition example_env : Collaborators :=
  {| HasExtension := Some true; Marshal := true;
     QueryOperation := Some example_fds; connects := fun _ => true |}.

(** The channels control, 1 and 2, of which the last cannot be opened. *)
Definition stderr_fails_env : Collaborators :=
  {| HasExtension := Some true; Marshal := true;
     QueryOperation := Some (delete "0" example_fds);
     connects := fun s => negb (String.eqb s "s2") |}.

Definition example_args (stdin : option Reader) : ContainerExecArgs :=
  {| Stdin := stdin; Stdout := Some example_writer;
     Stderr := Some example_writer; Control := true; DataDone := true |}.

(** Operations that close something. *)
Definition closes (a : Action) : bool :=
  match a with
  | Do (ConnClose _) | Do StdinClose | Do DataDoneClose => true
  | _ => false
  end.

(** The connections opened, and the connections whose handler or pump was
    started, in order. *)
Definition opened (tr : list Action) : list Conn :=
  flat_map (fun a => match a with Do (Dial c _ true) => [c] | _ => [] end) tr.

Definition served (tr : list Action) : list Conn :=
  flat_map (fun a => match a with
                     | Do GoControl => [CControl]
                     | Start (Outbound c) | StartClosed (Outbound c)
                     | Start (Inbound c) => [c]
                     | _ => []
                     end) tr.

(** The claim of the specification about a failed start: what was opened is
    closed again, and no pump was started. *)
Definition fails_fast_as_specified (tr : list Action) : Prop :=
  (forall c secret, In (Do (Dial c secret true)) tr -> In (Do (ConnClose c)) tr)
  /\ (forall p, ~ In (Start p) tr).

(** The claim of the specification about the interactive session: the
    connection is closed only after both pumps have handed over their
    signal. *)
Definition waits_for_both_as_specified (prog : list Action) : Prop :=
  forall s, reachable prog s -> In (ConnClose CStdin) (done s) ->
            pumps s (Outbound CStdin) = Exited /\
            pumps s (Inbound CStdin) = Exited.


Abbreviation fwd_send := (Forward CSource CTarget).
Abbreviation fwd_recv := (Forward CTarget CSource).

Definition closing : list Action :=
  [Do (ConnClose CSource); Do (ConnClose CTarget); Do Fire].

(** Before the [select] has received a signal no forwarder has returned
    and nothing was closed; afterwards exactly one forwarder has returned,
    and only closing and signalling is left to do. *)
Definition live (pc : PumpPc) : Prop := pc <> Exited /\ pc <> ChClosed.

Definition proxy_inv (s : State) : Prop :=
  (exists pre,
      (pre = [Start fwd_send; Start fwd_recv] \/ pre = [Start fwd_recv]
       \/ pre = []) /\
      todo s = pre ++ WaitAny fwd_send fwd_recv :: closing /\
      done s = [] /\
      live (pumps s fwd_send) /\ live (pumps s fwd_recv))
  \/ (Forall (fun a => exists e, a = Do e) (todo s) /\
      ((pumps s fwd_send = Exited /\ pumps s fwd_recv <> Exited) \/
       (pumps s fwd_recv = Exited /\ pumps s fwd_send <> Exited))).

Definition proxy_done : list Effect :=
  [ConnClose CSource; ConnClose CTarget; Fire].


(** * Properties *)

(** ** ReaderToChannel *)

Lemma len_app (a b : bytes) : len (a ++ b) = len a + len b.
Proof. unfold len. rewrite length_app. lia. Qed.

Lemma len_nonneg (b : bytes) : 0 <= len b.
Proof. unfold len. lia. Qed.

Lemma len_zero_nil (b : bytes) : len b <= 0 -> b = [].
Proof. destruct b; [reflexivity | unfold len; simpl; lia]. Qed.

Lemma effectiveBufferSize_floor (F : Z) :
  readSize <= effectiveBufferSize F /\ F <= effectiveBufferSize F.
Proof.
  unfold effectiveBufferSize, readSize.
  destruct (Z.leb_spec F (128 * 1024)); lia.
Qed.

Lemma Forall_removelast_cons {A} (P : A -> Prop) (x : A) (l : list A) :
  (l <> [] -> P x) -> Forall P (removelast l) -> Forall P (removelast (x :: l)).
Proof.
  intros Hx Hl. destruct l as [|y l]; simpl; [constructor|].
  constructor; [apply Hx; discriminate | exact Hl].
Qed.

Example shared_rtc_two_reads :
  Shared.ReaderToChannel [mkRead [x61] false; mkRead [x62; x63] true] (-1)
  = [[x61]; [x62; x63]].
Proof. reflexivity. Qed.

Example network_rtc_two_reads :
  Network.ReaderToChannel [mkRead [x61] false; mkRead [x62; x63] true] (-1)
  = [[x61]].
Proof. reflexivity. Qed.

(** Nothing is lost and nothing is invented by the producer of package
    [shared]. *)
Lemma shared_produce_concat (B : Z) (r : Reader) : forall buf,
  concat (Shared.produce B buf r) = buf ++ bytes_read r.
Proof.
  induction r as [|[d e] r IH]; intros buf; simpl.
  - rewrite !app_nil_r.
    destruct (Z.ltb_spec 0 (len buf)) as [Hpos|Hz];
      rewrite ?orb_true_r; simpl.
    + now rewrite app_nil_r.
    + now rewrite (len_zero_nil buf Hz).
  - destruct (Z.ltb_spec 0 (len (buf ++ d))) as [Hpos|Hz]; simpl.
    + destruct (B <=? len (buf ++ d) + readSize); simpl.
      * destruct e; simpl.
        -- now rewrite !app_nil_r.
        -- rewrite IH. simpl. now rewrite <- app_assoc.
      * destruct e; simpl.
        -- now rewrite !app_nil_r.
        -- rewrite IH. now rewrite <- app_assoc.
    + destruct e; simpl.
      * rewrite app_nil_r. now rewrite (len_zero_nil _ Hz).
      * rewrite IH. now rewrite <- app_assoc.
Qed.

Lemma room_after_read (B : Z) (buf d : bytes) :
  readSize <= B -> room B buf -> len d <= readSize -> len (buf ++ d) <= B.
Proof.
  intros HB [->|Hroom] Hd; rewrite len_app.
  - unfold len at 1. simpl. lia.
  - lia.
Qed.

Lemma shared_produce_bounds (B : Z) (r : Reader) : forall buf,
  readSize <= B -> respects_read_size r -> room B buf ->
  Forall (fun c => 0 < len c <= B) (Shared.produce B buf r) /\
  Forall (fun c => B - readSize <= len c) (removelast (Shared.produce B buf r)).
Proof.
  induction r as [|[d e] r IH]; intros buf HB Hr Hroom; simpl.
  - rewrite app_nil_r.
    destruct (Z.ltb_spec 0 (len buf)) as [Hpos|Hz];
      rewrite ?orb_true_r; simpl.
    + split; [|constructor].
      constructor; [|constructor].
      destruct Hroom as [->|Hroom]; [unfold len in Hpos; simpl in Hpos; lia|].
      pose proof (len_nonneg buf). unfold readSize in *. lia.
    + split; constructor.
  - inversion Hr as [|? ? Hd Hr']; subst. simpl in Hd.
    pose proof (room_after_read B buf d HB Hroom Hd) as Hup.
    destruct (Z.ltb_spec 0 (len (buf ++ d))) as [Hpos|Hz]; simpl.
    + destruct (Z.leb_spec B (len (buf ++ d) + readSize)) as [Hfull|Hnot];
        simpl.
      * destruct e; simpl.
        -- split; [repeat constructor; lia | constructor].
        -- destruct (IH [] HB Hr' (or_introl eq_refl)) as [IH1 IH2].
           split; [constructor; [lia | exact IH1]|].
           apply Forall_removelast_cons; [intros _; lia | exact IH2].
      * destruct e; simpl.
        -- split; [repeat constructor; lia | constructor].
        -- apply IH; [exact HB | exact Hr' | right; lia].
    + destruct e; simpl.
      * split; constructor.
      * apply IH; [exact HB | exact Hr' | left; now apply len_zero_nil].
Qed.

(** The producer of package [network] sends a chunk only when the buffer
    has no room for another whole read. *)
Lemma network_produce_bounds (B : Z) (r : Reader) : forall buf,
  readSize <= B -> respects_read_size r -> room B buf ->
  Forall (fun c => 0 < len c <= B /\ B - readSize <= len c)
         (Network.produce B buf r).
Proof.
  induction r as [|[d e] r IH]; intros buf HB Hr Hroom; simpl.
  - constructor.
  - inversion Hr as [|? ? Hd Hr']; subst. simpl in Hd.
    pose proof (room_after_read B buf d HB Hroom Hd) as Hup.
    unfold Network.iteration; simpl.
    destruct e; simpl; [constructor|].
    destruct (Z.ltb_spec 0 (len (buf ++ d))) as [Hpos|Hz]; simpl.
    + destruct (Z.leb_spec B (len (buf ++ d) + readSize)) as [Hfull|Hnot];
        simpl.
      * constructor; [lia|]. apply IH; [exact HB | exact Hr' | now left].
      * apply IH; [exact HB | exact Hr' | right; lia].
    + apply IH; [exact HB | exact Hr' | left; now apply len_zero_nil].
Qed.

(** What reaches the consumer in package [network] is an initial part of
    what was read. *)
Lemma network_produce_prefix (B : Z) (r : Reader) : forall buf,
  exists lost, buf ++ bytes_read r = concat (Network.produce B buf r) ++ lost.
Proof.
  induction r as [|[d e] r IH]; intros buf; simpl.
  - exists buf. now rewrite app_nil_r.
  - unfold Network.iteration; simpl.
    destruct e; simpl.
    + exists (buf ++ d). now rewrite app_nil_r.
    + destruct ((0 <? len (buf ++ d)) && (B <=? len (buf ++ d) + readSize));
        simpl.
      * destruct (IH []) as [lost Hlost]. exists lost.
        simpl in Hlost. rewrite <- !app_assoc. now rewrite <- Hlost.
      * destruct (IH (buf ++ d)) as [lost Hlost]. exists lost.
        rewrite <- Hlost. now rewrite <- app_assoc.
Qed.

(** C2 (as stated) fails: with the default size a reader that hands over one
    byte per call gives chunks of one byte each, in both packages, far below
    the floor of 128 KiB; and the producer of package [network] does not
    send the two bytes that come together with the final error. *)
Lemma C2_chunk_floor_counterexample :
  ~ chunks_as_specified Shared.ReaderToChannel
      [mkRead [x61] false; mkRead [x62] false] (-1) /\
  ~ chunks_as_specified Network.ReaderToChannel
      [mkRead [x61] false; mkRead [x62] false] (-1) /\
  ~ chunks_as_specified Network.ReaderToChannel
      [mkRead [x61] false; mkRead [x62; x63] true] (-1).
Proof.
  split; [|split].
  - intros [_ H]; vm_compute in H.
    inversion H as [|? ? Hc _]; subst; apply Hc; reflexivity.
  - intros [_ H]; vm_compute in H.
    inversion H as [|? ? Hc _]; subst; apply Hc; reflexivity.
  - intros [H _]; vm_compute in H. discriminate.
Qed.

(** C2 (amended): for every reader that honours the [Read] contract and
    every requested size, with [B] the effective size (the larger of the
    request and 128 KiB): the chunks of package [shared] concatenate to
    exactly the bytes read, so that the pending bytes are sent as a final
    chunk when the source ends or fails; in both packages every chunk is
    non-empty and at most [B] long, and every chunk of package [shared] but
    the last, and every chunk of package [network], has at least
    [B - 128 KiB] bytes. *)
Theorem C2_ReaderToChannel_chunks (r : Reader) (F : Z) :
  respects_read_size r ->
  concat (Shared.ReaderToChannel r F) = bytes_read r /\
  Forall (fun c => 0 < len c <= effectiveBufferSize F)
         (Shared.ReaderToChannel r F) /\
  Forall (fun c => effectiveBufferSize F - readSize <= len c)
         (removelast (Shared.ReaderToChannel r F)) /\
  Forall (fun c => 0 < len c <= effectiveBufferSize F /\
                   effectiveBufferSize F - readSize <= len c)
         (Network.ReaderToChannel r F).
Proof.
  intros Hr. pose proof (effectiveBufferSize_floor F) as [HB _].
  unfold Shared.ReaderToChannel, Network.ReaderToChannel.
  split; [apply (shared_produce_concat _ r [])|].
  destruct (shared_produce_bounds (effectiveBufferSize F) r [] HB Hr
              (or_introl eq_refl)) as [H1 H2].
  split; [exact H1|]. split; [exact H2|].
  apply network_produce_bounds; [exact HB | exact Hr | now left].
Qed.

Lemma C2_ReaderToChannel_chunks_witness :
  respects_read_size [mkRead [x61] false; mkRead [x62; x63] true] /\
  concat (Shared.ReaderToChannel
            [mkRead [x61] false; mkRead [x62; x63] true] (-1))
  = [x61; x62; x63].
Proof.
  assert (Hr : respects_read_size [mkRead [x61] false; mkRead [x62; x63] true]).
  { repeat constructor; vm_compute; discriminate. }
  split; [exact Hr|].
  exact (proj1 (C2_ReaderToChannel_chunks _ (-1) Hr)).
Defined.

(** ** The pumps *)

Lemma fires_app (a b : list Event) : fires (a ++ b) = (fires a + fires b)%nat.
Proof. unfold fires. now rewrite filter_app, length_app. Qed.

Lemma barriers_app (a b : list Event) :
  barriers (a ++ b) = (barriers a + barriers b)%nat.
Proof. unfold barriers. now rewrite filter_app, length_app. Qed.

Lemma close_messages_app (a b : list Event) :
  close_messages (a ++ b) = (close_messages a + close_messages b)%nat.
Proof. unfold close_messages. now rewrite filter_app, length_app. Qed.

Lemma quiet_nil : quiet [].
Proof. repeat split. Qed.

Lemma quiet_cons (e : Event) (tr : list Event) :
  is_fire e = false -> is_barrier e = false -> is_close_message e = false ->
  quiet tr -> quiet (e :: tr).
Proof.
  intros Hf Hb Hc (Qf & Qb & Qc).
  unfold quiet, fires, barriers, close_messages in *.
  rewrite !filter_cons, Hf, Hb, Hc.
  repeat (destruct (decide _) as [Hd|_]; [inversion Hd|]).
  auto.
Qed.

Ltac quiet_step :=
  first [ apply quiet_nil
        | apply quiet_cons; [reflexivity | reflexivity | reflexivity | ] ].

Lemma shared_send_loop_quiet (conn : ConnOut) (chunks : list bytes) :
  forall i, quiet (Shared.send_loop conn i chunks).
Proof.
  induction chunks as [|buf rest IH]; intros i; simpl; [quiet_step|].
  destruct (conn i); repeat quiet_step. apply IH.
Qed.

Lemma network_send_loop_quiet (ctx : nat -> bool) (conn : ConnOut)
  (chunks : list bytes) :
  forall i, quiet (Network.send_loop ctx conn i chunks).
Proof.
  induction chunks as [|buf rest IH]; intros i; simpl; [quiet_step|].
  destruct (ctx i); [quiet_step|].
  destruct (conn i); repeat quiet_step; apply IH.
Qed.

Lemma shared_recv_loop_quiet (w : option Writer) (conn : ConnIn) :
  forall k, quiet (Shared.recv_loop w k conn).
Proof.
  induction conn as [|m rest IH]; intros k; simpl; [quiet_step|].
  repeat (match goal with |- quiet (if ?b then _ else _) => destruct b end;
          [quiet_step|]).
  destruct w as [wr|]; [|apply IH].
  destruct (wr k (in_payload m)) as [n err].
  quiet_step.
  repeat (match goal with |- quiet (if ?b then _ else _) => destruct b end;
          [quiet_step|]).
  apply IH.
Qed.

Lemma network_recv_loop_quiet (w : option Writer) (conn : ConnIn) :
  forall k, quiet (Network.recv_loop w k conn).
Proof.
  induction conn as [|m rest IH]; intros k; simpl; [quiet_step|].
  repeat (match goal with |- quiet (if ?b then _ else _) => destruct b end;
          [quiet_step|]).
  destruct w as [wr|]; [|apply IH].
  destruct (wr k (in_payload m)) as [n err].
  quiet_step.
  repeat (match goal with |- quiet (if ?b then _ else _) => destruct b end;
          [quiet_step|]).
  apply IH.
Qed.

Lemma defaultWriter_loop_quiet (w : Writer) (conn : ConnIn) :
  forall k, quiet (defaultWriter_loop w k conn).
Proof.
  induction conn as [|m rest IH]; intros k; simpl; [quiet_step|].
  repeat (match goal with |- quiet (if ?b then _ else _) => destruct b end;
          [quiet_step|]).
  destruct (w k (in_payload m)) as [n err].
  quiet_step.
  repeat (match goal with |- quiet (if ?b then _ else _) => destruct b end;
          [quiet_step|]).
  apply IH.
Qed.


Lemma fires_once_at_exit_count (tr : list Event) :
  fires_once_at_exit tr -> fires tr = 1%nat.
Proof.
  intros (pre & e & -> & He & Hpre). rewrite fires_app, Hpre.
  unfold fires. simpl. rewrite filter_cons, He.
  destruct (decide _) as [_|Hd]; [reflexivity | exfalso; apply Hd; exact I].
Qed.

(** C7: on every path through either outbound pump and either inbound pump
    (reader exhausted, nil reader, the writer cannot be had or written,
    cancellation, transport error, barrier, close message, short or failed
    local write) the completion signal is given once, and it is the last
    thing the pump does; so the count of signals in its trace is one. *)
Theorem C7_completion_signal_once :
  (forall conn r F, fires_once_at_exit (Shared.WebsocketSendStream conn r F)) /\
  (forall w conn, fires_once_at_exit (Shared.WebsocketRecvStream w conn)) /\
  (forall ctx conn r F,
     fires_once_at_exit (Network.WebsocketSendStreamWithContext ctx conn r F)) /\
  (forall w conn, fires_once_at_exit (Network.WebsocketRecvStream w conn)) /\
  (forall conn r F, fires (Shared.WebsocketSendStream conn r F) = 1%nat) /\
  (forall w conn, fires (Shared.WebsocketRecvStream w conn) = 1%nat) /\
  (forall ctx conn r F,
     fires (Network.WebsocketSendStreamWithContext ctx conn r F) = 1%nat) /\
  (forall w conn, fires (Network.WebsocketRecvStream w conn) = 1%nat).
Proof.
  assert (H1 : forall conn r F,
             fires_once_at_exit (Shared.WebsocketSendStream conn r F)).
  { intros conn [r|] F; simpl.
    - exists (Shared.send_loop conn 0 (Shared.ReaderToChannel r F)
                ++ [WriteMessage TextMessage []]), Signal.
      rewrite <- app_assoc. split; [reflexivity|]. split; [reflexivity|].
      rewrite fires_app.
      now rewrite (proj1 (shared_send_loop_quiet conn _ 0%nat)).
    - exists [], SignalClosed. repeat split. }
  assert (H2 : forall w conn,
             fires_once_at_exit (Shared.WebsocketRecvStream w conn)).
  { intros w conn. exists (Shared.recv_loop w 0 conn), Signal.
    repeat split. apply shared_recv_loop_quiet. }
  assert (H3 : forall ctx conn r F,
             fires_once_at_exit
               (Network.WebsocketSendStreamWithContext ctx conn r F)).
  { intros ctx conn [r|] F; simpl.
    - exists (Network.send_loop ctx conn 0 (Network.ReaderToChannel r F)),
        Signal.
      repeat split. apply network_send_loop_quiet.
    - exists [], SignalClosed. repeat split. }
  assert (H4 : forall w conn,
             fires_once_at_exit (Network.WebsocketRecvStream w conn)).
  { intros w conn. exists (Network.recv_loop w 0 conn), Signal.
    repeat split. apply network_recv_loop_quiet. }
  repeat split; intros; auto using fires_once_at_exit_count.
Qed.

(** The outbound pump of package [shared] ends every run that had a reader
    with one barrier, just before its signal. *)
Lemma shared_send_stream_barrier (conn : ConnOut) (r : Reader) (F : Z) :
  barriers (Shared.WebsocketSendStream conn (Some r) F) = 1%nat /\
  exists pre, Shared.WebsocketSendStream conn (Some r) F
              = pre ++ [WriteMessage TextMessage []; Signal].
Proof.
  simpl. split; [|eauto].
  rewrite barriers_app.
  now rewrite (proj1 (proj2 (shared_send_loop_quiet conn _ 0%nat))).
Qed.

(** The outbound pump of package [network] never sends a barrier. *)
Lemma network_send_stream_no_barrier (ctx : nat -> bool) (conn : ConnOut)
  (r : option Reader) (F : Z) :
  barriers (Network.WebsocketSendStreamWithContext ctx conn r F) = 0%nat.
Proof.
  destruct r as [r|]; simpl; [|reflexivity].
  rewrite barriers_app.
  now rewrite (proj1 (proj2 (network_send_loop_quiet ctx conn _ 0%nat))).
Qed.

(** C3 (the code departs from it): [ExecuteContainer] runs its interactive
    session with [WebsocketSendStream] of package [network].  With a reader
    that hands over the three bytes of "ls\n" and then ends, and a
    connection that takes every message, that pump sends one binary message
    and its completion signal, and no barrier. *)
Lemma C3_network_pump_gives_no_barrier :
  Network.WebsocketSendStream (fun _ => Sent)
    (Some [mkRead [x6c; x73; x0a] false]) (-1)
  = [NextWriter BinaryMessage true; MsgWrite [x6c; x73; x0a] true; MsgClose;
     Signal]
  /\ barriers (Network.WebsocketSendStream (fun _ => Sent)
                 (Some [mkRead [x6c; x73; x0a] false]) (-1)) = 0%nat
  /\ Shared.WebsocketSendStream (fun _ => Sent)
       (Some [mkRead [x6c; x73; x0a] false]) (-1)
     = [NextWriter BinaryMessage true; MsgWrite [x6c; x73; x0a] true; MsgClose;
        WriteMessage TextMessage []; Signal].
Proof. repeat split. Qed.

(** ** The reader goroutine of the console mirror *)

Lemma mirror_reader_shape (conn : ConnOut) (chunks : list bytes) :
  forall i, exists data,
    quiet data /\
    mirror_reader conn i chunks
    = data ++ (if all_sent conn i (length chunks) then on_eof else on_break).
Proof.
  induction chunks as [|buf rest IH]; intros i; simpl.
  - exists []. split; [apply quiet_nil | reflexivity].
  - unfold all_sent. simpl. fold (all_sent conn (S i) (length rest)).
    destruct (conn i); simpl.
    + exists [NextWriter BinaryMessage false].
      split; [repeat quiet_step | reflexivity].
    + exists [NextWriter BinaryMessage true; MsgWrite buf false; MsgClose].
      split; [repeat quiet_step | reflexivity].
    + destruct (IH (S i)) as (data & Hq & ->).
      exists (NextWriter BinaryMessage true :: MsgWrite buf true :: MsgClose
                :: data).
      split; [repeat quiet_step; exact Hq | reflexivity].
Qed.

(** C5 (as stated) fails: with a reader that hands over two bytes and then
    ends, and a connection that takes every message, the reader half sends
    the data, closes the reader, sends the barrier and signals; no close
    message is sent. *)
Lemma C5_console_mirror_counterexample :
  fst (Network.WebsocketConsoleMirror (fun _ => Sent) []
         (fun _ b => (len b, false)) [mkRead [x68; x69] false])
  = [NextWriter BinaryMessage true; MsgWrite [x68; x69] true; MsgClose;
     LocalReaderClose; WriteMessage TextMessage []; Signal]
  /\ ~ eof_as_specified
         (fst (Network.WebsocketConsoleMirror (fun _ => Sent) []
                 (fun _ b => (len b, false)) [mkRead [x68; x69] false]))
  /\ ~ eof_as_specified
         (fst (Shared.WebsocketConsoleMirror (fun _ => Sent) []
                 (fun _ b => (len b, false)) [mkRead [x68; x69] false])).
Proof.
  assert (H : forall tr, close_messages tr = 0%nat -> ~ eof_as_specified tr).
  { intros tr Hz (pre & post & -> & _ & Hc).
    rewrite close_messages_app in Hz. lia. }
  split; [reflexivity|]. split; apply H; reflexivity.
Qed.

(** C5 (amended): in both packages the reader half of
    [WebsocketConsoleMirror] sends the chunks of the local reader as binary
    messages; when the reader ends after every chunk was taken by the
    connection, it closes the reader, sends the barrier and gives its
    signal, and sends no close message; when a chunk cannot be sent, it
    sends the close message, gives its signal and closes the reader, and
    sends no barrier. *)
Theorem C5_console_mirror_reader (conn_out : ConnOut) (conn_in : ConnIn)
  (w : Writer) (r : Reader) :
  (exists data,
     quiet data /\
     fst (Shared.WebsocketConsoleMirror conn_out conn_in w r)
     = data ++ (if all_sent conn_out 0
                     (length (Shared.ReaderToChannel r (-1)))
                then [LocalReaderClose; WriteMessage TextMessage []; Signal]
                else [WriteMessage CloseMessage closeMsg; Signal;
                      LocalReaderClose])) /\
  (exists data,
     quiet data /\
     fst (Network.WebsocketConsoleMirror conn_out conn_in w r)
     = data ++ (if all_sent conn_out 0
                     (length (Network.ReaderToChannel r (-1)))
                then [LocalReaderClose; WriteMessage TextMessage []; Signal]
                else [WriteMessage CloseMessage closeMsg; Signal;
                      LocalReaderClose])).
Proof. split; apply mirror_reader_shape. Qed.

(** ** The inbound pump, message by message *)

Lemma shared_recv_as_specified w k m rest :
  recv_as_specified Shared.recv_loop w k m rest.
Proof.
  unfold recv_as_specified; simpl. repeat split.
  - intros ->. now repeat (destruct (_ =? _)).
  - now intros ->.
  - intros ->. now destruct (_ =? _).
  - intros -> -> ->. simpl.
    destruct w as [wr|]; [|reflexivity].
    destruct (wr k (in_payload m)) as [n err]; simpl.
    destruct (n =? len (in_payload m)), err; reflexivity.
Qed.

Lemma network_recv_as_specified w k m rest :
  recv_as_specified Network.recv_loop w k m rest.
Proof.
  unfold recv_as_specified; simpl. repeat split.
  - now intros ->.
  - intros ->. now destruct (in_err m).
  - intros ->. now destruct (in_err m).
  - intros -> -> ->. simpl.
    destruct w as [wr|]; [|reflexivity].
    destruct (wr k (in_payload m)) as [n err]; simpl.
    destruct (n =? len (in_payload m)), err; reflexivity.
Qed.

(** C6: in both packages, for every message the inbound pump receives: a
    transport error, a close message and a text message end the loop; the
    payload of a binary message is handed to the local writer as it is, in
    one [Write], and the loop goes on exactly when that write was complete
    and without error; with a nil writer the payload is dropped and the
    loop goes on. *)
Theorem C6_recv_stream_by_message (w : option Writer) (k : nat)
  (m : Incoming) (rest : ConnIn) :
  recv_as_specified Shared.recv_loop w k m rest /\
  recv_as_specified Network.recv_loop w k m rest.
Proof.
  split; [apply shared_recv_as_specified | apply network_recv_as_specified].
Qed.

Example recv_stream_example :
  Network.WebsocketRecvStream (Some (fun _ b => (len b, false)))
    [mkIn BinaryMessage false [x6c; x73] false;
     mkIn BinaryMessage false [x0a] false;
     mkIn TextMessage false [] false;
     mkIn BinaryMessage false [x21] false]
  = [LocalWrite [x6c; x73] 2 false; LocalWrite [x0a] 1 false; Signal].
Proof. reflexivity. Qed.

Example recv_stream_nil_writer :
  Shared.WebsocketRecvStream None
    [mkIn BinaryMessage false [x6c; x73] false;
     mkIn CloseMessage false [] false]
  = [Signal].
Proof. reflexivity. Qed.

Example recv_stream_short_write :
  Shared.WebsocketRecvStream (Some (fun _ b => (len b - 1, false)))
    [mkIn BinaryMessage false [x6c; x73] false;
     mkIn BinaryMessage false [x0a] false]
  = [LocalWrite [x6c; x73] 1 false; Signal].
Proof. reflexivity. Qed.

(** ** Goroutines: general facts *)

Lemma set_pump_eq p v ps : set_pump p v ps p = v.
Proof. unfold set_pump. destruct (decide (p = p)); congruence. Qed.

Lemma set_pump_ne p q v ps : q <> p -> set_pump p v ps q = ps q.
Proof. unfold set_pump. destruct (decide (q = p)); congruence. Qed.

Ltac pump_solve :=
  unfold set_pump in *; simpl in *;
  repeat match goal with
         | |- context [decide (?a = ?b)] => destruct (decide (a = b))
         | H : context [decide (?a = ?b)] |- _ => destruct (decide (a = b))
         end;
  subst; first [congruence | tauto | intuition congruence].

Lemma invariant_rtc (Inv : State -> Prop) :
  (forall s s', Inv s -> step s s' -> Inv s') ->
  forall s s', rtc step s s' -> Inv s -> Inv s'.
Proof. intros Hstep s s' Hrtc. induction Hrtc; eauto. Qed.

(** A step leaves the operations of the coordinator as they are or takes
    the first one, which is then not the panicking call. *)
Lemma step_todo s s' :
  step s s' ->
  todo s' = todo s \/ exists a, a <> NilCall /\ todo s = a :: todo s'.
Proof.
  intros H; inversion H; subst; simpl; auto; right; eexists; split; eauto;
    discriminate.
Qed.

Lemma step_not_panicked s s' : step s s' -> panicked s = false.
Proof. intros H; inversion H; reflexivity. Qed.

(** Effects are neither lost nor repeated. *)
Lemma step_effects s s' :
  step s s' -> done s' ++ effects (todo s') = done s ++ effects (todo s).
Proof.
  intros H; inversion H; subst; simpl; auto. now rewrite <- app_assoc.
Qed.

Lemma reachable_effects prog s :
  reachable prog s -> done s ++ effects (todo s) = effects prog.
Proof.
  intros H.
  refine (invariant_rtc
            (fun s => done s ++ effects (todo s) = effects prog) _ _ _ H _).
  - intros s1 s2 H1 H2. cbn beta. now rewrite (step_effects _ _ H2).
  - reflexivity.
Qed.

Lemma effects_app a b : effects (a ++ b) = effects a ++ effects b.
Proof. unfold effects. now rewrite flat_map_app. Qed.

(** The function [exec] is one of the runs of the program. *)
Lemma settle_sound p ps ps' k d :
  settle p ps = Some ps' ->
  rtc step (mkState (Wait p :: k) ps d false) (mkState k ps' d false).
Proof.
  unfold settle. destruct (ps p) eqn:Hp; intros [= <-].
  - eapply rtc_l; [apply (step_loop_ends p); exact Hp|].
    apply rtc_once, step_wait, set_pump_eq.
  - apply rtc_once, step_wait, Hp.
  - apply rtc_once, step_wait_closed, Hp.
Qed.

Lemma settle_sound_l p q ps ps' k d :
  settle p ps = Some ps' ->
  rtc step (mkState (WaitAny p q :: k) ps d false) (mkState k ps' d false).
Proof.
  unfold settle. destruct (ps p) eqn:Hp; intros [= <-].
  - eapply rtc_l; [apply (step_loop_ends p); exact Hp|].
    apply rtc_once, step_select_l, set_pump_eq.
  - apply rtc_once, step_select_l, Hp.
  - apply rtc_once, step_select_closed. now left.
Qed.

Lemma settle_sound_r p q ps ps' k d :
  settle q ps = Some ps' ->
  rtc step (mkState (WaitAny p q :: k) ps d false) (mkState k ps' d false).
Proof.
  unfold settle. destruct (ps q) eqn:Hq; intros [= <-].
  - eapply rtc_l; [apply (step_loop_ends q); exact Hq|].
    apply rtc_once, step_select_r, set_pump_eq.
  - apply rtc_once, step_select_r, Hq.
  - apply rtc_once, step_select_closed. now right.
Qed.

Lemma exec_sound t : forall ps d,
  rtc step (mkState t ps d false) (exec t ps d).
Proof.
  induction t as [|a k IH]; intros ps d; simpl; [apply rtc_refl|].
  destruct a as [p|p|p|p q|e|].
  - eapply rtc_l; [apply step_start | apply IH].
  - eapply rtc_l; [apply step_start_closed | apply IH].
  - destruct (settle p ps) as [ps'|] eqn:Hs; [|apply rtc_refl].
    etrans; [apply settle_sound, Hs | apply IH].
  - destruct (settle p ps) as [ps'|] eqn:Hs.
    + etrans; [apply settle_sound_l, Hs | apply IH].
    + destruct (settle q ps) as [ps'|] eqn:Hs'; [|apply rtc_refl].
      etrans; [apply settle_sound_r, Hs' | apply IH].
  - eapply rtc_l; [apply step_do | apply IH].
  - apply rtc_once, step_panic.
Qed.

Lemma exec_reachable prog : reachable prog (exec prog (fun _ => Idle) []).
Proof. apply exec_sound. Qed.

Lemma unawaited_step p s s' : unawaited p s -> step s s' -> unawaited p s'.
Proof.
  intros [Ht Hp] H. inversion H; subst; simpl in *;
    try (inversion Ht as [|? ? Ha Ht']; subst; simpl in Ha);
    repeat match goal with
           | Ha : _ || _ = false |- _ => apply orb_false_elim in Ha as [? ?]
           | Ha : bool_decide _ = false |- _ => apply bool_decide_eq_false in Ha
           end;
    (split; [assumption|]);
    pump_solve.
Qed.

Lemma never_awaited_never_exits prog p s :
  Forall (fun a => waits_on p a = false) prog ->
  reachable prog s -> pumps s p <> Exited.
Proof.
  intros Hprog Hs.
  apply (invariant_rtc (unawaited p) (unawaited_step p) _ _ Hs).
  split; [exact Hprog | discriminate].
Qed.

Lemma stranded_step p s s' : stranded p s -> step s s' -> stranded p s'.
Proof.
  intros [Ht Hp] H. inversion H; subst; simpl in *;
    try (inversion Ht as [|? ? [Ha Hb] Ht']; subst; simpl in Ha, Hb);
    repeat match goal with
           | Ha : _ || _ = false |- _ => apply orb_false_elim in Ha as [? ?]
           | Ha : bool_decide _ = false |- _ => apply bool_decide_eq_false in Ha
           end;
    (split; [assumption|]);
    pump_solve.
Qed.

Lemma stranded_for_ever p s s' :
  stranded p s -> rtc step s s' -> pumps s' p = Signalling.
Proof.
  intros Hs Hrtc.
  now apply (invariant_rtc (stranded p) (stranded_step p) _ _ Hrtc).
Qed.

(** The program never gets past a call on a nil interface. *)
Lemma nil_call_blocks post s s' :
  (exists pre, todo s = pre ++ NilCall :: post) -> step s s' ->
  exists pre', todo s' = pre' ++ NilCall :: post.
Proof.
  intros [pre Hpre] H.
  destruct (step_todo _ _ H) as [->|(a & Ha & Hcons)]; [eauto|].
  rewrite Hpre in Hcons. destruct pre as [|b pre]; simpl in Hcons.
  - congruence.
  - exists pre. congruence.
Qed.

Lemma gated_step p e post s s' :
  Forall (fun a => starts p a = false) post ->
  gated p e post s -> step s s' -> gated p e post s'.
Proof.
  intros Hpost [(pre & Hpre & Hfa & He & Hp)|[Ht Hp]] H.
  - assert (Hkeep : forall ps' d',
               ps' p <> ChClosed -> ~ In e d' ->
               gated p e post (mkState (pre ++ Wait p :: post) ps' d' false)).
    { intros ps' d' H1 H2. left. exists pre. auto. }
    assert (Hnext : forall a pre' ps' d',
               pre = a :: pre' -> ps' p <> ChClosed -> ~ In e d' ->
               gated p e post (mkState (pre' ++ Wait p :: post) ps' d' false)).
    { intros a pre' ps' d' -> H1 H2. left. exists pre'.
      inversion Hfa; subst. auto. }
    inversion H; subst; simpl in *;
      try (rewrite Hpre; apply Hkeep; [pump_solve | assumption]; fail);
      (destruct pre as [|a pre]; simpl in Hpre;
       [ injection Hpre as Ha Hk; try discriminate Ha
       | injection Hpre as Ha Hk; subst a k ]).
    all: try (eapply Hnext; [reflexivity | pump_solve | assumption]; fail).
    + eapply Hnext; [reflexivity | | assumption].
      inversion Hfa as [|? ? [_ Hne] _].
      rewrite set_pump_ne; [assumption | congruence].
    + subst. right. split; [assumption | apply set_pump_eq].
    + subst. congruence.
    + eapply Hnext; [reflexivity | assumption |].
      rewrite in_app_iff. simpl. intros [?|[->|[]]]; [contradiction|].
      inversion Hfa as [|? ? [Hne _] _]. congruence.
  - right. inversion H; subst; simpl in *;
      try (inversion Ht as [|? ? Ha Ht']; subst; simpl in Ha;
           try apply bool_decide_eq_false in Ha);
      (split; [assumption|]); pump_solve.
Qed.

Lemma gate_holds prog p e pre post s :
  prog = pre ++ Wait p :: post ->
  Forall (fun a => a <> Do e /\ a <> StartClosed p) pre ->
  Forall (fun a => starts p a = false) post ->
  reachable prog s -> In e (done s) -> pumps s p = Exited.
Proof.
  intros -> Hpre Hpost Hs.
  assert (Hg : gated p e post s).
  { refine (invariant_rtc (gated p e post)
              (fun s1 s2 => gated_step p e post s1 s2 Hpost) _ _ Hs _).
    left. exists pre. repeat split; auto; discriminate. }
  destruct Hg as [(_ & _ & _ & He & _)|[_ Hp]]; [contradiction | auto].
Qed.

Lemma before_nil_split t : forall pre post,
  before_nil t = Some (pre, post) -> t = pre ++ NilCall :: post.
Proof.
  induction t as [|a k IH]; intros pre post; simpl; [discriminate|].
  destruct a; try (intros [= <- <-]; reflexivity);
    (destruct (before_nil k) as [[pre' post']|]; [|discriminate]);
    intros [= <- <-]; simpl; f_equal; now apply IH.
Qed.

Lemma nil_call_never_passed prog pre post s :
  before_nil prog = Some (pre, post) -> reachable prog s ->
  todo s <> [] /\ forall e, In e (done s) -> In e (effects pre).
Proof.
  intros Hsplit Hs. apply before_nil_split in Hsplit.
  assert (Hblock : exists pre', todo s = pre' ++ NilCall :: post).
  { refine (invariant_rtc
              (fun s => exists pre', todo s = pre' ++ NilCall :: post)
              (nil_call_blocks post) _ _ Hs _).
    exists pre. exact Hsplit. }
  destruct Hblock as [pre' Hpre'].
  split; [rewrite Hpre'; now destruct pre'|].
  pose proof (reachable_effects _ _ Hs) as Heff.
  rewrite Hpre', Hsplit, !effects_app, app_assoc in Heff.
  apply app_inv_tail in Heff.
  intros e He. rewrite <- Heff, in_app_iff. now left.
Qed.

(** ** ExecuteContainer *)

(** C1 (as stated) fails: in a session with the channels control, 1 and 2
    that is not interactive, when the connection for 2 cannot be opened,
    [ExecuteContainer] returns that error after it has opened control and 1,
    started the control handler and started the inbound pump of 1; it
    closes nothing. *)
Lemma C1_open_failure_counterexample :
  ExecuteContainer stderr_fails_env "x" false (Some (example_args None))
  = ([Do (Dial CControl "c" true); Do GoControl;
      Do (Dial CStdout "s1" true); Start (Inbound CStdout);
      Do (Dial CStderr "s2" false)],
     inl (ErrWebsocket "s2"))
  /\ ~ fails_fast_as_specified
         (fst (ExecuteContainer stderr_fails_env "x" false
                 (Some (example_args None)))).
Proof.
  split; [vm_compute; reflexivity|].
  intros [_ Hno]. apply (Hno (Inbound CStdout)).
  vm_compute. auto.
Qed.

(** C1 (amended): whenever [ExecuteContainer] returns an error it has closed
    nothing -- no connection, not the local stdin, not [DataDone] -- and it
    leaves no goroutine behind that would; either it has done nothing yet,
    or its last call is the attempt to open a connection that failed, whose
    error it returns; and each connection opened before that has already
    been given to its control handler or to its pump. *)
Theorem C1_open_failure_closes_nothing env id interactive args tr e :
  ExecuteContainer env id interactive args = (tr, inl e) ->
  Forall (fun a => closes a = false) tr /\
  opened tr = served tr /\
  (tr = [] \/
   exists c secret,
     last tr = Some (Do (Dial c secret false)) /\ e = ErrWebsocket secret).
Proof.
  intros H.
  unfold ExecuteContainer, getOperationWebsocket, sendStream,
    bind, emit, ret, fail in H.
  repeat case_match; simplify_eq/=.
  all: split; [repeat constructor|].
  all: split; [reflexivity|].
  all: first [left; reflexivity | right; eexists _, _; split; reflexivity].
Qed.

Lemma C1_open_failure_closes_nothing_witness :
  opened (fst (ExecuteContainer stderr_fails_env "x" false
                 (Some (example_args None))))
  = served (fst (ExecuteContainer stderr_fails_env "x" false
                   (Some (example_args None)))).
Proof.
  refine (proj1 (proj2 (C1_open_failure_closes_nothing stderr_fails_env "x"
                          false (Some (example_args None)) _
                          (ErrWebsocket "s2") _))).
  vm_compute. reflexivity.
Defined.

Lemma interactive_session_shape env id args tr task :
  is_Some (Stdin args) -> is_Some (Stdout args) ->
  ExecuteContainer env id true (Some args) = (tr, inr task) ->
  task = [Start (Outbound CStdin); Start (Inbound CStdin);
          Wait (Inbound CStdin); Do (ConnClose CStdin)]
         ++ (if DataDone args then [Do DataDoneClose] else []) /\
  Forall (fun a => (exists c secret, a = Do (Dial c secret true))
                   \/ a = Do GoControl) tr.
Proof.
  intros [r Hr] [w Hw] H.
  unfold ExecuteContainer, getOperationWebsocket, interactiveTask, sendStream,
    bind, emit, ret, fail in H.
  rewrite Hr, Hw in H. simpl in H.
  repeat case_match; simplify_eq/=.
  all: split; [reflexivity|].
  all: repeat (constructor; [first [now right | left; eauto]|]); constructor.
Qed.

(** C4 (as stated) fails: in the interactive session of the example the
    run in which the outbound pump is still in its loop when the inbound
    pump signals ends with the connection closed and [DataDone] closed,
    while nobody has received, or will receive, the signal of the outbound
    pump. *)
Lemma C4_interactive_counterexample :
  exists tr task,
    ExecuteContainer example_env "x" true (Some (example_args (Some [])))
    = (tr, inr task) /\
    reachable (tr ++ task) (exec (tr ++ task) (fun _ => Idle) []) /\
    done (exec (tr ++ task) (fun _ => Idle) [])
    = [Dial CControl "c" true; GoControl; Dial CStdin "s0" true;
       ConnClose CStdin; DataDoneClose] /\
    pumps (exec (tr ++ task) (fun _ => Idle) []) (Outbound CStdin) = Running /\
    ~ waits_for_both_as_specified (tr ++ task).
Proof.
  eexists _, _. split; [vm_compute; reflexivity|].
  split; [apply exec_reachable|].
  split; [vm_compute; reflexivity|].
  split; [vm_compute; reflexivity|].
  intros Hclaim.
  destruct (Hclaim _ (exec_reachable _)) as [Hout _].
  - vm_compute. auto 10.
  - vm_compute in Hout. discriminate.
Qed.

(** C4 (amended): in an interactive session with local stdin and stdout the
    goroutine of the session starts the outbound pump, starts the inbound
    pump, waits for the signal of the inbound pump, closes the connection
    of channel 0 and then closes [DataDone] if there is one.  So the
    connection is closed only after the inbound pump has handed over its
    signal; the signal of the outbound pump is never received. *)
Theorem C4_interactive_waits_for_inbound env id args tr task s :
  is_Some (Stdin args) -> is_Some (Stdout args) ->
  ExecuteContainer env id true (Some args) = (tr, inr task) ->
  reachable (tr ++ task) s ->
  task = [Start (Outbound CStdin); Start (Inbound CStdin);
          Wait (Inbound CStdin); Do (ConnClose CStdin)]
         ++ (if DataDone args then [Do DataDoneClose] else []) /\
  (In (ConnClose CStdin) (done s) -> pumps s (Inbound CStdin) = Exited) /\
  pumps s (Outbound CStdin) <> Exited.
Proof.
  intros Hin Hout H Hs.
  destruct (interactive_session_shape _ _ _ _ _ Hin Hout H) as [Htask Htr].
  split; [exact Htask|]. subst task. split.
  - eapply (gate_holds _ (Inbound CStdin) (ConnClose CStdin)
             (tr ++ [Start (Outbound CStdin); Start (Inbound CStdin)])
             (Do (ConnClose CStdin)
                :: (if DataDone args then [Do DataDoneClose] else []))
             s); [|  | |exact Hs]; [now rewrite <- app_assoc| |].
    + apply Forall_app. split.
      * eapply Forall_impl; [exact Htr|].
        intros a [(c & secret & ->) | ->]; split; discriminate.
      * repeat constructor; discriminate.
    + destruct (DataDone args); repeat constructor.
  - eapply never_awaited_never_exits; [|exact Hs].
    apply Forall_app. split.
    + eapply Forall_impl; [exact Htr|].
      intros a [(c & secret & ->) | ->]; reflexivity.
    + destruct (DataDone args); repeat constructor.
Qed.

Lemma C4_interactive_waits_for_inbound_witness :
  pumps (exec ([Do (Dial CControl "c" true); Do GoControl;
                Do (Dial CStdin "s0" true)]
               ++ interactiveTask (example_args (Some [])))
              (fun _ => Idle) [])
        (Outbound CStdin) <> Exited.
Proof.
  refine (proj2 (proj2 (C4_interactive_waits_for_inbound example_env "x"
                          (example_args (Some [])) _ _ _ _ _ _ _))).
  - simpl. eauto.
  - simpl. eauto.
  - vm_compute. reflexivity.
  - apply exec_reachable.
Defined.

(** C10: when a session is not interactive, the operation has a stdin
    channel and the caller gave no local stdin, the goroutine that ends the
    session waits for the inbound pumps and then calls [Close] on the nil
    stdin, before it would close the connections.  The run in which the
    inbound pumps signal ends in that panic; and in no run is the end of
    the goroutine reached, a connection closed or [DataDone] closed. *)
Theorem C10_nil_stdin_close_panics env id fds args tr task :
  QueryOperation env = Some fds ->
  nonempty (fd fds "0") = true ->
  Stdin args = None ->
  ExecuteContainer env id false (Some args) = (tr, inr task) ->
  (exists waits rest,
      before_nil task = Some (waits, rest) /\
      Forall (fun a => exists c, a = Wait (Inbound c)) waits /\
      In (Do (ConnClose CStdin)) rest) /\
  panicked (exec (tr ++ task) (fun _ => Idle) []) = true /\
  (forall s, reachable (tr ++ task) s ->
             todo s <> [] /\
             (forall c, ~ In (ConnClose c) (done s)) /\
             ~ In DataDoneClose (done s)).
Proof.
  intros Hq H0 Hstdin H.
  unfold ExecuteContainer, getOperationWebsocket, cleanupTask, sendStream,
    bind, emit, ret, fail in H.
  rewrite Hq, Hstdin in H. simpl in H. rewrite !H0 in H. simpl in H.
  repeat case_match; simplify_eq/=.
  all: split;
    [eexists _, _; split; [reflexivity|];
     split; [repeat (constructor; [eexists; reflexivity|]); constructor
            | simpl; auto]|].
  all: split; [reflexivity|].
  all: intros s Hs;
    eapply nil_call_never_passed in Hs as [Hne Hdone]; [|reflexivity];
    split; [exact Hne|];
    split; [intros c Hin | intros Hin];
    apply Hdone in Hin; simpl in Hin; intuition discriminate.
Qed.

Lemma C10_nil_stdin_close_panics_witness :
  panicked (exec (fst (ExecuteContainer example_env "x" false
                         (Some (example_args None)))
                  ++ cleanupTask example_fds (example_args None)
                       [(0, Outbound CStdin); (1, Inbound CStdout);
                        (2, Inbound CStderr)]
                       [CStdin; CStdout; CStderr])
                 (fun _ => Idle) []) = true.
Proof.
  refine (proj1 (proj2 (C10_nil_stdin_close_panics example_env "x" example_fds
                          (example_args None) _ _ _ _ _ _))).
  - reflexivity.
  - vm_compute. reflexivity.
  - reflexivity.
  - vm_compute. reflexivity.
Defined.

(** ** WebsocketProxy *)



Example forward_three_messages :
  forward [mkIn BinaryMessage false [x41] false;
           mkIn TextMessage false [] false;
           mkIn BinaryMessage false [x42; x43] false;
           mkIn (-1) true [] false]
          (fun _ => Sent)
  = [NextWriter BinaryMessage true; MsgWrite [x41] true; MsgClose;
     NextWriter TextMessage true; MsgWrite [] true; MsgClose;
     NextWriter BinaryMessage true; MsgWrite [x42; x43] true; MsgClose;
     Signal].
Proof. reflexivity. Qed.

Lemma proxy_before_select pre ps :
  pre = [Start fwd_send; Start fwd_recv] \/ pre = [Start fwd_recv]
  \/ pre = [] ->
  live (ps fwd_send) -> live (ps fwd_recv) ->
  proxy_inv (mkState (pre ++ WaitAny fwd_send fwd_recv :: closing) ps [] false).
Proof. intros Hpre H1 H2. left. exists pre. auto. Qed.

Lemma proxy_inv_step s s' : proxy_inv s -> step s s' -> proxy_inv s'.
Proof.
  intros [(pre & Hpre & Ht & Hd & [H1 H1'] & [H2 H2'])|[Ht Hp]] H.
  - inversion H; subst; simpl in *;
      destruct Hpre as [-> | [-> | ->]]; simpl in Ht; simplify_eq.
    + apply (proxy_before_select [Start fwd_recv]); [auto| |];
        split; pump_solve.
    + apply (proxy_before_select []); [auto| |]; split; pump_solve.
    + apply (proxy_before_select [Start fwd_send; Start fwd_recv]);
        [auto| |]; split; pump_solve.
    + apply (proxy_before_select [Start fwd_recv]); [auto| |];
        split; pump_solve.
    + apply (proxy_before_select []); [auto| |]; split; pump_solve.
    + right. split; [repeat constructor; eauto|]. left. split; pump_solve.
    + right. split; [repeat constructor; eauto|]. right. split; pump_solve.
    + tauto.
  - right. inversion H; subst; simpl in *;
      try (inversion Ht as [|? ? [e0 He0] Ht']; subst; try discriminate He0);
      (split; [assumption|]); pump_solve.
Qed.

Lemma proxy_inv_reachable s : reachable WebsocketProxy s -> proxy_inv s.
Proof.
  intros Hs. refine (invariant_rtc proxy_inv proxy_inv_step _ _ Hs _).
  apply (proxy_before_select [Start fwd_send; Start fwd_recv]);
    [auto| |]; split; discriminate.
Qed.





(** C9 (the code departs from it): of the two [forward] goroutines of the
    proxy at most one ever returns.  The [select] receives one signal; the
    other [forward] leaves its loop and then stays in [ch <- true] on a
    channel that nobody reads.  In particular, after the combined signal a
    [forward] that has not returned never will; and in the run where the
    source side stops first, the goroutine of the proxy ends with both
    connections closed and its signal given while the other [forward] is
    blocked for ever. *)
Theorem C9_proxy_strands_a_forwarder :
  (forall s, reachable WebsocketProxy s ->
      ~ (pumps s fwd_send = Exited /\ pumps s fwd_recv = Exited)) /\
  (forall s s' p, reachable WebsocketProxy s -> In Fire (done s) ->
      pumps s p <> Exited -> rtc step s s' -> pumps s' p <> Exited) /\
  (exists s, reachable WebsocketProxy s /\
      todo s = [] /\ done s = proxy_done /\
      pumps s fwd_send = Exited /\ pumps s fwd_recv = Signalling /\
      forall s', rtc step s s' -> pumps s' fwd_recv = Signalling).
Proof.
  split; [|split].
  - intros s Hs [H1 H2].
    destruct (proxy_inv_reachable _ Hs)
      as [(_ & _ & _ & _ & [H _] & _)|[_ [[_ H]|[_ H]]]]; contradiction.
  - intros s s' p Hs Hfire Hp Hrtc.
    assert (Hu : unawaited p s).
    { split; [|exact Hp].
      destruct (proxy_inv_reachable _ Hs) as [(_ & _ & _ & Hnil & _)|[Ht _]].
      - rewrite Hnil in Hfire. contradiction.
      - eapply Forall_impl; [exact Ht|]. now intros a [e ->]. }
    apply (invariant_rtc (unawaited p) (unawaited_step p) _ _ Hrtc Hu).
  - pose (s0 := exec WebsocketProxy (fun _ => Idle) []).
    exists (mkState (todo s0) (set_pump fwd_recv Signalling (pumps s0))
                    (done s0) false).
    split; [|split; [reflexivity|split; [reflexivity|split; [reflexivity|
             split; [reflexivity|]]]]].
    + eapply rtc_r; [apply (exec_reachable WebsocketProxy)|].
      change (exec WebsocketProxy (fun _ => Idle) [])
        with (mkState (todo s0) (pumps s0) (done s0) false).
      apply step_loop_ends. reflexivity.
    + intros s' Hrtc. eapply stranded_for_ever; [|exact Hrtc].
      split; [constructor | reflexivity].
Qed.
